(** * Byte codecs and sequence rewriting of libdevcore/CommonData.h

    A shallow embedding of the big-endian codecs ([toBigEndian],
    [fromBigEndian], [toCompactBigEndian], [bytesRequired]), of
    [formatNumber], of the hexadecimal decoder [fromHex] and of the two
    rewriting combinators [iterateReplacing] and [iterateReplacingWindow],
    followed by the properties the specification states about them. *)

From Stdlib Require Import NArith ZArith Lia Ascii String.
From Equations Require Import Equations.
From stdpp Require Import base numbers list strings pretty.

(** ** Big-endian codecs *)

Module ByteCodec.

Local Open Scope N_scope.

(** [bytes] is [std::vector<uint8_t>]; an element is a number below 256. *)
Abbreviation bytes := (list N).

(** The conversion [(uint8_t)x] keeps the low eight bits. *)
Definition uint8_t (x : N) : N := N.land x 0xff.

(** The integer types [T] the codecs are instantiated with: an unsigned type
    of [bits] bits ([unsigned], [u160], [u256]) or [bigint]. The
    [static_assert] of the codecs rejects every other signed type, and the
    codecs are only used on non-negative [bigint] values, so a value of [T]
    is a natural number; [cast] is the wrap-around of the conversion [(T)x]. *)
Inductive IntType :=
| Unsigned (bits : N)
| BigInt.

Definition cast (T : IntType) (x : N) : N :=
  match T with
  | Unsigned bits => x mod 2 ^ bits
  | BigInt => x
  end.

Definition representable (T : IntType) (x : N) : Prop :=
  match T with
  | Unsigned bits => x < 2 ^ bits
  | BigInt => True
  end.

(** [for (auto i = o_out.size(); i != 0; _val >>= 8, i--)
       { T v = _val & (T)0xff; o_out[i - 1] = (uint8_t)v; }] *)
Fixpoint toBigEndian_loop (i : nat) (_val : N) (o_out : bytes) : bytes :=
  match i with
  | O => o_out
  | S i' =>
      let v := N.land _val 0xff in
      toBigEndian_loop i' (N.shiftr _val 8) (<[i' := uint8_t v]> o_out)
  end.

Definition toBigEndian (_val : N) (o_out : bytes) : bytes :=
  toBigEndian_loop (length o_out) _val o_out.

(** [T ret = 0; for (auto i: _bytes) ret = (T)((ret << 8) | (uint8_t)i);] *)
Definition fromBigEndian (T : IntType) (_bytes : bytes) : N :=
  fold_left (fun ret i => cast T (N.lor (cast T (N.shiftl ret 8)) (uint8_t i)))
            _bytes (cast T 0).

(** Termination of the two counting loops below: a shift by eight bits
    shortens a non-zero value. *)
Ltac shiftr8_decreases v Hv :=
  destruct (N.eq_dec (N.shiftr v 8) 0) as [E|E];
  [ rewrite E, (N.size_log2 v) by exact Hv; simpl; lia
  | rewrite !N.size_log2 by assumption;
    rewrite N.log2_shiftr;
    assert (8 ≤ N.log2 v)
      by (destruct (N.le_gt_cases 8 (N.log2 v)) as [?|Hlt]; [assumption|];
          exfalso; apply E; apply N.shiftr_eq_0; exact Hlt);
    lia ].

(** [unsigned i = 0; for (; _i != 0; ++i, _i >>= 8) {} return i;] *)
Equations? bytesRequired_loop (_i : N) (i : nat) : nat
  by wf (N.to_nat (N.size _i)) lt :=
  bytesRequired_loop _i i with N.eq_dec _i 0 => {
    | left _ := i;
    | right Hne := bytesRequired_loop (N.shiftr _i 8) (S i) }.
Proof. shiftr8_decreases _i Hne. Defined.

Definition bytesRequired (_i : N) : nat := bytesRequired_loop _i 0.

(** [int i = 0; for (T v = _val; v; ++i, v >>= 8) {}] of [toCompactBigEndian]. *)
Equations? toCompactBigEndian_loop (v : N) (i : nat) : nat
  by wf (N.to_nat (N.size v)) lt :=
  toCompactBigEndian_loop v i with N.eq_dec v 0 => {
    | left _ := i;
    | right Hne := toCompactBigEndian_loop (N.shiftr v 8) (S i) }.
Proof. shiftr8_decreases v Hne. Defined.

(** [bytes ret(std::max<unsigned>(_min, i), 0); toBigEndian(_val, ret);
     return ret;] *)
Definition toCompactBigEndian (_val : N) (_min : nat) : bytes :=
  let i := toCompactBigEndian_loop _val 0 in
  let ret := replicate (Nat.max _min i) 0 in
  toBigEndian _val ret.

(** The big-endian digits of [v] in base 256, [n] of them: what the loop of
    [toBigEndian] leaves in a buffer of [n] bytes. *)
Fixpoint be_bytes (n : nat) (v : N) : bytes :=
  match n with
  | O => []
  | S n' => be_bytes n' (N.shiftr v 8) ++ [N.land v 0xff]
  end.

(** [inline bytes toBigEndian(u256 _val)
     { bytes ret(32); toBigEndian(_val, ret); return ret; }]
    and the same for [u160] with 20 bytes. A [u256] is a number below
    [2^256], a [u160] one below [2^160]. *)
Definition toBigEndian_u256 (_val : N) : bytes :=
  let ret := replicate 32 0 in toBigEndian _val ret.

Definition toBigEndian_u160 (_val : N) : bytes :=
  let ret := replicate 20 0 in toBigEndian _val ret.

End ByteCodec.

(** ** Hexadecimal text *)

Module HexCodec.

Import ByteCodec.

Inductive WhenError := DontThrow | Throw.
Inductive HexPrefix := DontAdd | Add.
Inductive HexCase := Lower | Upper | Mixed.

(** The outcome of a decode: the decoded value, or the signalled failure
    ([BadHexCharacter] in the declaration's words "it will throw an
    exception"). *)
Inductive decoded (A : Type) :=
| Decoded (a : A)
| BadHexCharacter.
Arguments Decoded {A} a.
Arguments BadHexCharacter {A}.

Definition bind {A B} (m : decoded A) (k : A → decoded B) : decoded B :=
  match m with
  | Decoded a => k a
  | BadHexCharacter => BadHexCharacter
  end.

(** Modelled from the spec: the hex digits are the characters of
    [0-9a-fA-F]. The value of a hex digit, [None] for any other character. *)
Definition hexDigit (c : ascii) : option N :=
  let n := N_of_ascii c in
  if (48 <=? n)%N && (n <=? 57)%N then Some (n - 48)%N
  else if (97 <=? n)%N && (n <=? 102)%N then Some (n - 97 + 10)%N
  else if (65 <=? n)%N && (n <=? 70)%N then Some (n - 65 + 10)%N
  else None.

(** Modelled from the spec: the body of [int fromHex(char _i, WhenError
    _throw)] is missing from the sources, only its declaration is there.
    A valid digit maps to its value; on any other character [Throw] signals
    a decode failure and [DontThrow] returns 0. *)
Definition fromHex_char (_i : ascii) (_throw : WhenError) : decoded N :=
  match hexDigit _i with
  | Some d => Decoded d
  | None =>
      match _throw with
      | Throw => BadHexCharacter
      | DontThrow => Decoded 0%N
      end
  end.

(** Modelled from the spec: the body of [bytes fromHex(std::string const&
    _s, WhenError _throw)] is missing from the sources, only its declaration
    is there. The string is consumed two characters at a time, each decoded
    by [fromHex_char] under the given policy; a trailing lone character is
    the low nibble of a final byte. *)
Fixpoint fromHex (_s : string) (_throw : WhenError) : decoded bytes :=
  match _s with
  | EmptyString => Decoded []
  | String c EmptyString =>
      bind (fromHex_char c _throw) (fun l => Decoded [l])
  | String c1 (String c2 rest) =>
      bind (fromHex_char c1 _throw) (fun h =>
      bind (fromHex_char c2 _throw) (fun l =>
      bind (fromHex rest _throw) (fun tl =>
      Decoded ((h * 16 + l)%N :: tl))))
  end.

(** Modelled from the spec: the bodies of [toHex(uint8_t, HexCase)] and
    [toHex(bytes const&, HexPrefix, HexCase)] are missing from the sources.
    They are pure formatting: two hex characters per byte, after an optional
    "0x". The spec does not describe the [Mixed] rendering; it is rendered
    like [Lower] here, and nothing below depends on it. *)
Definition hexChar (_case : HexCase) (d : N) : ascii :=
  if (d <? 10)%N then ascii_of_N (48 + d)
  else match _case with
       | Upper => ascii_of_N (65 + (d - 10))
       | _ => ascii_of_N (97 + (d - 10))
       end.

Definition toHex_byte (_data : N) (_case : HexCase) : string :=
  String (hexChar _case (N.land (N.shiftr _data 4) 0xf))
    (String (hexChar _case (N.land _data 0xf)) EmptyString).

Definition toHex (_data : bytes) (_prefix : HexPrefix) (_case : HexCase) : string :=
  (match _prefix with Add => "0x" | DontAdd => EmptyString end)
  +:+ foldr (fun b acc => toHex_byte b _case +:+ acc) EmptyString _data.

End HexCodec.

(** ** [formatNumber] *)

Module Format.

Import ByteCodec HexCodec.

Section FormatNumber.

(** [toHex] on byte sequences and the decimal rendering [bigint::str] are
    not defined in the sources; [formatNumber] is modelled over any pair of
    them. *)
Variable toHex : bytes → HexPrefix → HexCase → string.
Variable str : Z → string.

(** [if (_value < 0) return "-" + formatNumber(-_value);
     if (_value > 0x1000000)
       return toHex(toCompactBigEndian(_value, 1), HexPrefix::Add);
     else return _value.str();]
    The value handed to [toCompactBigEndian] is positive there. *)
Equations? formatNumber (_value : Z) : string
  by wf (Z.to_nat (1 - Z.sgn _value)) lt :=
  formatNumber _value with decide (_value < 0)%Z => {
    | left Hneg := "-" +:+ formatNumber (- _value)%Z;
    | right _ with decide (_value > 0x1000000)%Z => {
        | left _ := toHex (toCompactBigEndian (Z.to_N _value) 1) Add Lower;
        | right _ := str _value } }.
Proof. lia. Defined.

(** [return toHex(toCompactBigEndian(_value, 1), HexPrefix::Add);] *)
Definition toCompactHexWithPrefix (_value : N) : string :=
  toHex (toCompactBigEndian _value 1) Add Lower.

(** [formatNumber(u256 const& _value)]:
    [if (_value > 0x1000000) return toCompactHexWithPrefix(_value);
     else return _value.str();] *)
Definition formatNumber_u256 (_value : N) : string :=
  if decide (0x1000000 < _value)%N then toCompactHexWithPrefix _value
  else str (Z.of_N _value).

End FormatNumber.

End Format.

(** ** Rewriting a vector in place *)

Module SequenceRewriter.

Section Rewriter.

Context {T : Type}.

(** The locals of both combinators: [useModified], [modifiedVector], and
    for the windowed one the index [i], which outlives its first loop. The
    field [calls] is not in the source: it records, in order, the positions
    at which [_f] has been invoked. A rule is a function to
    [std::optional<std::vector<T>>]; [None] is "no change". *)
Record state := State {
  idx : nat;
  useModified : bool;
  modifiedVector : list T;
  calls : list nat
}.

Definition initial : state :=
  {| idx := 0; useModified := false; modifiedVector := []; calls := [] |}.

(** [if (!useModified) { std::move(_vector.begin(), _vector.begin() + i,
       back_inserter(modifiedVector)); useModified = true; }] *)
Definition catchUp (_vector : list T) (i : nat) (st : state) : list T :=
  if useModified st then modifiedVector st
  else modifiedVector st ++ take i _vector.

(** One iteration of the loop of [iterateReplacing], increment included:
    [if (r = _f(_vector[i])) { catch up; modifiedVector += *r; }
     else if (useModified) modifiedVector.emplace_back(_vector[i]);] *)
Definition iterateReplacing_body (_vector : list T) (_f : T → option (list T))
    (st : state) : state :=
  let i := idx st in
  match _vector !! i with
  | None => st
  | Some x =>
      match _f x with
      | Some r =>
          {| idx := S i; useModified := true;
             modifiedVector := catchUp _vector i st ++ r;
             calls := calls st ++ [i] |}
      | None =>
          {| idx := S i; useModified := useModified st;
             modifiedVector :=
               if useModified st then modifiedVector st ++ [x]
               else modifiedVector st;
             calls := calls st ++ [i] |}
      end
  end.

(** [for (size_t i = 0; i < _vector.size(); ++i)]: the size of [_vector]
    does not change during the loop, which runs [_vector.size()] times. *)
Definition iterateReplacing_loop (_vector : list T) (_f : T → option (list T))
    : state :=
  Nat.iter (length _vector) (iterateReplacing_body _vector _f) initial.

(** [if (useModified) _vector = std::move(modifiedVector);] *)
Definition iterateReplacing (_vector : list T) (_f : T → option (list T))
    : list T :=
  let st := iterateReplacing_loop _vector _f in
  if useModified st then modifiedVector st else _vector.

(** The arguments [_vector[i + I]...] of a call of the windowed rule, [N] of
    them. *)
Definition window (N : nat) (_vector : list T) (i : nat) : list T :=
  take N (drop i _vector).

(** One iteration of the first loop of [detail::iterateReplacingWindow]:
    [if (r = _f(_vector[i + I]...)) { catch up; modifiedVector += *r;
       i += sizeof...(I) - 1; }
     else if (useModified) modifiedVector.emplace_back(_vector[i]);]
    followed by the [++i] of the loop. On a match the index moves by [N] in
    all: [i += N - 1] and [++i] are computed on [size_t], so that for
    [N = 0] the wrap-around of the first cancels against the second. *)
Definition iterateReplacingWindow_body (N : nat) (_vector : list T)
    (_f : list T → option (list T)) (st : state) : state :=
  let i := idx st in
  match _f (window N _vector i) with
  | Some r =>
      {| idx := i + N; useModified := true;
         modifiedVector := catchUp _vector i st ++ r;
         calls := calls st ++ [i] |}
  | None =>
      {| idx := S i; useModified := useModified st;
         modifiedVector :=
           if useModified st
           then modifiedVector st ++ option_list (_vector !! i)
           else modifiedVector st;
         calls := calls st ++ [i] |}
  end.

(** [for (; i + sizeof...(I) <= _vector.size(); ++i)]. The loop is run on
    fuel; [None] is a run that has not left the loop when the fuel is
    spent. *)
Fixpoint iterateReplacingWindow_loop (fuel : nat) (N : nat) (_vector : list T)
    (_f : list T → option (list T)) (st : state) : option state :=
  match fuel with
  | O => None
  | S fuel' =>
      if decide (idx st + N ≤ length _vector)
      then iterateReplacingWindow_loop fuel' N _vector _f
             (iterateReplacingWindow_body N _vector _f st)
      else Some st
  end.

(** The first loop from the start. With [N ≥ 1] it is left after at most
    [_vector.size()] iterations; with [N = 0] and a rule that never fires,
    after [_vector.size() + 1]. *)
Definition iterateReplacingWindow_scan (N : nat) (_vector : list T)
    (_f : list T → option (list T)) : option state :=
  iterateReplacingWindow_loop (length _vector + 2) N _vector _f initial.

(** [if (useModified) { for (; i < _vector.size(); ++i)
       modifiedVector.emplace_back(_vector[i]);
     _vector = std::move(modifiedVector); }] *)
Definition finish (_vector : list T) (st : state) : list T :=
  if useModified st then modifiedVector st ++ drop (idx st) _vector
  else _vector.

Definition iterateReplacingWindow (N : nat) (_vector : list T)
    (_f : list T → option (list T)) : option (list T) :=
  finish _vector <$> iterateReplacingWindow_scan N _vector _f.

(** *** Notions used to state the properties of the combinators *)

(** What one element contributes to the result of [iterateReplacing]: the
    replacement if the rule fires on it, the element itself otherwise. *)
Definition expand (f : T → option (list T)) (x : T) : list T :=
  default [x] (f x).

(** The state of [iterateReplacing] after [k] iterations. While nothing has
    fired the buffer is empty; afterwards it holds the rewriting of the
    first [k] elements. *)
Definition rewritten_upto (v : list T) (f : T → option (list T)) (k : nat)
    (st : state) : Prop :=
  idx st = k
  ∧ calls st = seq 0 k
  ∧ if useModified st
    then modifiedVector st = flat_map (expand f) (take k v)
    else modifiedVector st = [] ∧ ∀ x, x ∈ take k v → f x = None.

(** Where the windowed scan goes after the window at [p]: one further if
    the rule declines it, past the whole window if it fires. *)
Definition next_window (N : nat) (v : list T) (f : list T → option (list T))
    (p : nat) : nat :=
  match f (window N v p) with
  | None => p + 1
  | Some _ => p + N
  end.

(** Every call is on a complete window, and each call is at the place the
    previous one leads to. *)
Definition chained (N : nat) (v : list T) (f : list T → option (list T))
    (l : list nat) : Prop :=
  ∀ k p q, l !! k = Some p → l !! S k = Some q →
    p + N ≤ length v ∧ q = next_window N v f p.

(** The invariant of the windowed scan: the calls so far are chained, the
    first of them is at 0, and the index is where the last one leads to. *)
Definition scanning (N : nat) (v : list T) (f : list T → option (list T))
    (st : state) : Prop :=
  chained N v f (calls st)
  ∧ (calls st = [] → idx st = 0)
  ∧ (∀ p, calls st !! 0 = Some p → p = 0)
  ∧ (∀ p, last (calls st) = Some p →
       p + N ≤ length v ∧ idx st = next_window N v f p).

(** The windowed rewrite as a recursion on the vector itself, with no
    index and no staging buffer: [skip] counts the elements still covered
    by the last replaced window. Where a whole window is left and the rule
    replaces it, the replacement stands for its [N] elements; any other
    element is kept. *)
Fixpoint rewriteWindows_go (N : nat) (f : list T → option (list T))
    (skip : nat) (l : list T) : list T :=
  match l with
  | [] => []
  | x :: l' =>
      match skip with
      | S skip' => rewriteWindows_go N f skip' l'
      | O =>
          if decide (N ≤ length l)
          then match f (take N l) with
               | Some r => r ++ rewriteWindows_go N f (N - 1) l'
               | None => x :: rewriteWindows_go N f 0 l'
               end
          else x :: rewriteWindows_go N f 0 l'
      end
  end.

Definition rewriteWindows (N : nat) (f : list T → option (list T))
    (l : list T) : list T :=
  rewriteWindows_go N f 0 l.

(** What the windowed loop has produced so far: the staging buffer once it
    is in use, the untouched front of the vector before. *)
Definition staged (v : list T) (st : state) : list T :=
  if useModified st then modifiedVector st else take (idx st) v.

(** A rule on single elements as a rule on windows of one element. *)
Definition on_singleton (f : T → option (list T)) (w : list T)
    : option (list T) :=
  match w with
  | [x] => f x
  | _ => None
  end.

End Rewriter.

Arguments state T : clear implicits.

End SequenceRewriter.

(** ** Strings, membership and search *)

Module Containers.

Import ByteCodec.

(** [asString(bytes const& _b)] builds a [std::string] from the range
    [_b.data()] to [_b.data() + _b.size()] read as characters: the bytes,
    each one a character. *)
Definition asString (_b : bytes) : string :=
  string_of_list_ascii (ascii_of_N <$> _b).

(** [asBytes(std::string const& _b)] builds a [bytes] from the range
    [_b.data()] to [_b.data() + _b.size()] read as [uint8_t]: the
    characters, each one a byte. *)
Definition asBytes (_b : string) : bytes :=
  N_of_ascii <$> list_ascii_of_string _b.

Section Contains.

Context {T : Type} `{EqDecision T}.

(** [std::find(first, last, _v)] on a sequence: the position of the first
    element equal to [_v], the length of the sequence (its end) if there is
    none. *)
Fixpoint std_find (_t : list T) (_v : T) : nat :=
  match _t with
  | [] => 0
  | x :: t' => if decide (x = _v) then 0 else S (std_find t' _v)
  end.

(** [return std::end(_t) != std::find(std::begin(_t), std::end(_t), _v);] *)
Definition contains (_t : list T) (_v : T) : bool :=
  bool_decide (length _t ≠ std_find _t _v).

End Contains.

(** [for (std::string const& needle: _needles)
       if (_haystack.find(needle) != std::string::npos) return needle;]
    and the empty string is returned after the loop.
    [_haystack.find(needle)] is [index 0 needle _haystack], the position of
    the first occurrence, with [None] for [npos]. *)
Fixpoint findAnyOf (_haystack : string) (_needles : list string) : string :=
  match _needles with
  | [] => EmptyString
  | needle :: rest =>
      match index 0 needle _haystack with
      | Some _ => needle
      | None => findAnyOf _haystack rest
      end
  end.

(** [needle] occurs in [haystack] at some position. *)
Definition occurs (needle haystack : string) : Prop :=
  ∃ m, substring m (String.length needle) haystack = needle.

End Containers.

(** * Properties *)

Import ByteCodec HexCodec Format SequenceRewriter Containers.

(** ** The fixed-length encoder writes the base-256 digits *)

Section BigEndianFacts.

Local Open Scope N_scope.

Lemma uint8_t_land (v : N) : uint8_t (N.land v 0xff) = N.land v 0xff.
Proof.
  unfold uint8_t. rewrite <- N.land_assoc. now rewrite N.land_diag.
Qed.

Lemma be_bytes_length (n : nat) (v : N) : length (be_bytes n v) = n.
Proof.
  revert v. induction n as [|n IH]; intros v; simpl; [reflexivity|].
  rewrite length_app, IH. simpl. lia.
Qed.

Lemma toBigEndian_loop_spec (i : nat) (v : N) (o_out : bytes) :
  (i ≤ length o_out)%nat →
  toBigEndian_loop i v o_out = be_bytes i v ++ drop i o_out.
Proof.
  revert v o_out. induction i as [|i IH]; intros v o_out Hi; simpl.
  - now rewrite drop_0.
  - rewrite IH by (rewrite length_insert; lia).
    rewrite <- app_assoc. f_equal.
    rewrite uint8_t_land.
    destruct (lookup_lt_is_Some_2 o_out i) as [y Hy]; [lia|].
    rewrite drop_insert_ge by lia.
    rewrite (drop_S _ _ _ Hy). rewrite Nat.sub_diag. reflexivity.
Qed.

Lemma toBigEndian_be_bytes (v : N) (o_out : bytes) :
  toBigEndian v o_out = be_bytes (length o_out) v.
Proof.
  unfold toBigEndian. rewrite toBigEndian_loop_spec by lia.
  rewrite drop_all. apply app_nil_r.
Qed.

Lemma toBigEndian_length (v : N) (o_out : bytes) :
  length (toBigEndian v o_out) = length o_out.
Proof. rewrite toBigEndian_be_bytes. apply be_bytes_length. Qed.

(** The most significant digit comes first. *)
Lemma be_bytes_cons (n : nat) (v : N) :
  be_bytes (S n) v
  = N.land (N.shiftr v (8 * N.of_nat n)) 0xff :: be_bytes n v.
Proof.
  revert v. induction n as [|n IH]; intros v.
  - simpl. now rewrite N.shiftr_0_r.
  - change (be_bytes (S (S n)) v)
      with (be_bytes (S n) (N.shiftr v 8) ++ [N.land v 0xff]).
    rewrite IH. rewrite N.shiftr_shiftr.
    replace (8 + 8 * N.of_nat n) with (8 * N.of_nat (S n)) by lia.
    reflexivity.
Qed.

Lemma be_bytes_pad (k n : nat) (v : N) :
  v < 2 ^ (8 * N.of_nat n) →
  be_bytes (k + n) v = replicate k 0 ++ be_bytes n v.
Proof.
  intros Hv. induction k as [|k IH]; [reflexivity|].
  change (S k + n)%nat with (S (k + n)).
  rewrite be_bytes_cons, IH. simpl. f_equal.
  rewrite N.shiftr_div_pow2, N.div_small; [reflexivity|].
  eapply N.lt_le_trans; [exact Hv|].
  apply N.pow_le_mono_r; lia.
Qed.

(** Digits only depend on the value modulo [2^(8n)]. *)
Lemma shiftr8_mod (v : N) (m : N) :
  N.shiftr (v mod 2 ^ (8 + m)) 8 = N.shiftr v 8 mod 2 ^ m.
Proof.
  apply N.bits_inj. intros k.
  rewrite N.shiftr_spec'.
  destruct (N.lt_ge_cases k m).
  - rewrite !N.mod_pow2_bits_low by lia. now rewrite N.shiftr_spec'.
  - now rewrite !N.mod_pow2_bits_high by lia.
Qed.

Lemma land_ff_mod (v : N) (m : N) :
  N.land (v mod 2 ^ (8 + m)) 0xff = N.land v 0xff.
Proof.
  change 0xff with (N.ones 8). rewrite !N.land_ones.
  apply N.bits_inj. intros k.
  destruct (N.lt_ge_cases k 8).
  - now rewrite !N.mod_pow2_bits_low by lia.
  - now rewrite !N.mod_pow2_bits_high by lia.
Qed.

Lemma be_bytes_mod (n : nat) (v : N) :
  be_bytes n (v mod 2 ^ (8 * N.of_nat n)) = be_bytes n v.
Proof.
  revert v. induction n as [|n IH]; intros v; [reflexivity|].
  simpl be_bytes.
  replace (8 * N.of_nat (S n)) with (8 + 8 * N.of_nat n) by lia.
  rewrite shiftr8_mod, land_ff_mod, IH. reflexivity.
Qed.

End BigEndianFacts.

(** ** Decoding *)

Section DecodeFacts.

Local Open Scope N_scope.

Lemma fromBigEndian_snoc (T : IntType) (l : bytes) (b : N) :
  fromBigEndian T (l ++ [b])
  = cast T (N.lor (cast T (N.shiftl (fromBigEndian T l) 8)) (uint8_t b)).
Proof. unfold fromBigEndian. now rewrite fold_left_app. Qed.

Lemma lor_shiftl8_digit (v : N) (m : N) :
  N.lor (N.shiftl (N.shiftr v 8 mod 2 ^ m) 8) (uint8_t (N.land v 0xff))
  = v mod 2 ^ (8 + m).
Proof.
  rewrite uint8_t_land. change 0xff with (N.ones 8). rewrite N.land_ones.
  apply N.bits_inj. intros k. rewrite N.lor_spec.
  destruct (N.lt_ge_cases k 8).
  - rewrite N.shiftl_spec_low by lia.
    now rewrite !N.mod_pow2_bits_low by lia.
  - rewrite N.shiftl_spec_high' by lia.
    rewrite (N.mod_pow2_bits_high v 8 k) by lia. rewrite orb_false_r.
    destruct (N.lt_ge_cases (k - 8) m).
    + rewrite !N.mod_pow2_bits_low by lia. rewrite N.shiftr_spec'.
      f_equal. lia.
    + now rewrite !N.mod_pow2_bits_high by lia.
Qed.

(** Without a target width, decoding [n] digits of [v] gives [v] modulo
    [2^(8n)]. *)
Lemma fromBigEndian_be_bytes (n : nat) (v : N) :
  fromBigEndian BigInt (be_bytes n v) = v mod 2 ^ (8 * N.of_nat n).
Proof.
  revert v. induction n as [|n IH]; intros v.
  - simpl. now rewrite N.mod_1_r.
  - simpl be_bytes. rewrite fromBigEndian_snoc, IH. simpl cast.
    replace (8 * N.of_nat (S n)) with (8 + 8 * N.of_nat n) by lia.
    rewrite <- lor_shiftl8_digit. now rewrite uint8_t_land.
Qed.

Lemma wrap_step (bits x c : N) :
  (N.lor (N.shiftl (x mod 2 ^ bits) 8 mod 2 ^ bits) c) mod 2 ^ bits
  = (N.lor (N.shiftl x 8) c) mod 2 ^ bits.
Proof.
  apply N.bits_inj. intros k.
  destruct (N.lt_ge_cases k bits).
  - rewrite !N.mod_pow2_bits_low by lia. rewrite !N.lor_spec. f_equal.
    rewrite N.mod_pow2_bits_low by lia.
    destruct (N.lt_ge_cases k 8).
    + now rewrite !N.shiftl_spec_low by lia.
    + rewrite !N.shiftl_spec_high' by lia.
      now rewrite N.mod_pow2_bits_low by lia.
  - now rewrite !N.mod_pow2_bits_high by lia.
Qed.

(** Wrapping at every step is wrapping once at the end. *)
Lemma fromBigEndian_cast (T : IntType) (l : bytes) :
  fromBigEndian T l = cast T (fromBigEndian BigInt l).
Proof.
  destruct T as [bits|]; [|reflexivity].
  induction l as [|b l IH] using rev_ind.
  - reflexivity.
  - rewrite !fromBigEndian_snoc, IH. simpl cast. apply wrap_step.
Qed.

Lemma cast_representable (T : IntType) (v : N) :
  representable T v → cast T v = v.
Proof.
  destruct T as [bits|]; simpl; [|reflexivity].
  intros Hv. now apply N.mod_small.
Qed.

End DecodeFacts.

(** ** Counting the bytes of a value *)

Section BytesRequiredFacts.

Local Open Scope N_scope.

Lemma bytesRequired_loop_step (v : N) (i : nat) :
  bytesRequired_loop v i
  = if decide (v = 0) then i else bytesRequired_loop (N.shiftr v 8) (S i).
Proof.
  rewrite bytesRequired_loop_equation_1.
  destruct (N.eq_dec v 0); case_decide; try contradiction; reflexivity.
Qed.

Lemma toCompactBigEndian_loop_step (v : N) (i : nat) :
  toCompactBigEndian_loop v i
  = if decide (v = 0) then i
    else toCompactBigEndian_loop (N.shiftr v 8) (S i).
Proof.
  rewrite toCompactBigEndian_loop_equation_1.
  destruct (N.eq_dec v 0); case_decide; try contradiction; reflexivity.
Qed.

Lemma shiftr8_lt (v : N) : v ≠ 0 → N.shiftr v 8 < v.
Proof.
  intros Hv. rewrite N.shiftr_div_pow2. apply N.div_lt; [lia|reflexivity].
Qed.

Lemma bytesRequired_loop_acc (v : N) (i : nat) :
  bytesRequired_loop v i = (i + bytesRequired v)%nat.
Proof.
  unfold bytesRequired. revert i.
  induction v as [v IH] using (well_founded_induction N.lt_wf_0).
  intros i. rewrite (bytesRequired_loop_step v i), (bytesRequired_loop_step v 0).
  case_decide as Hv; [lia|].
  rewrite (IH _ (shiftr8_lt v Hv) (S i)), (IH _ (shiftr8_lt v Hv) 1%nat). lia.
Qed.

(** The two counting loops of the source agree. *)
Lemma toCompactBigEndian_loop_bytesRequired (v : N) (i : nat) :
  toCompactBigEndian_loop v i = bytesRequired_loop v i.
Proof.
  revert i.
  induction v as [v IH] using (well_founded_induction N.lt_wf_0).
  intros i.
  rewrite (toCompactBigEndian_loop_step v i), (bytesRequired_loop_step v i).
  case_decide as Hv; [reflexivity|].
  apply IH, shiftr8_lt, Hv.
Qed.

Lemma bytesRequired_zero : bytesRequired 0 = 0%nat.
Proof. reflexivity. Qed.

Lemma bytesRequired_nonzero (v : N) :
  v ≠ 0 → bytesRequired v = S (bytesRequired (N.shiftr v 8)).
Proof.
  intros Hv. unfold bytesRequired at 1.
  rewrite bytesRequired_loop_step. case_decide; [contradiction|].
  now rewrite bytesRequired_loop_acc.
Qed.

Lemma shiftr8_bound (v m : N) : N.shiftr v 8 < 2 ^ m → v < 2 ^ (8 + m).
Proof.
  rewrite N.shiftr_div_pow2, N.pow_add_r.
  change (2 ^ 8) with 256. generalize (2 ^ m). intros p H.
  pose proof (N.div_mod v 256 ltac:(lia)) as E.
  pose proof (N.mod_lt v 256 ltac:(lia)) as L.
  revert H E L. generalize (v / 256) (v mod 256). intros q r H E L. lia.
Qed.

Lemma shiftr8_bound_below (v m : N) : 2 ^ m ≤ N.shiftr v 8 → 2 ^ (8 + m) ≤ v.
Proof.
  rewrite N.shiftr_div_pow2, N.pow_add_r.
  change (2 ^ 8) with 256. generalize (2 ^ m). intros p H.
  pose proof (N.div_mod v 256 ltac:(lia)) as E.
  revert H E. generalize (v / 256) (v mod 256). intros q r H E. lia.
Qed.

(** [bytesRequired v] bytes are enough for [v] ... *)
Lemma bytesRequired_upper (v : N) : v < 2 ^ (8 * N.of_nat (bytesRequired v)).
Proof.
  induction v as [v IH] using (well_founded_induction N.lt_wf_0).
  destruct (decide (v = 0)) as [->|Hv]; [reflexivity|].
  rewrite (bytesRequired_nonzero v Hv).
  replace (8 * N.of_nat (S (bytesRequired (N.shiftr v 8))))
    with (8 + 8 * N.of_nat (bytesRequired (N.shiftr v 8))) by lia.
  apply shiftr8_bound, IH, shiftr8_lt, Hv.
Qed.

(** ... and one byte fewer is not. *)
Lemma bytesRequired_lower (v : N) (k : nat) :
  bytesRequired v = S k → 2 ^ (8 * N.of_nat k) ≤ v.
Proof.
  revert k.
  induction v as [v IH] using (well_founded_induction N.lt_wf_0).
  intros k Hk.
  destruct (decide (v = 0)) as [->|Hv]; [discriminate|].
  rewrite (bytesRequired_nonzero v Hv) in Hk. injection Hk as Hk.
  destruct k as [|k].
  - simpl. lia.
  - replace (8 * N.of_nat (S k)) with (8 + 8 * N.of_nat k) by lia.
    apply shiftr8_bound_below. apply IH; [apply shiftr8_lt, Hv|exact Hk].
Qed.

Lemma toCompactBigEndian_be_bytes (v : N) (_min : nat) :
  toCompactBigEndian v _min = be_bytes (Nat.max _min (bytesRequired v)) v.
Proof.
  unfold toCompactBigEndian.
  rewrite toBigEndian_be_bytes, length_replicate.
  now rewrite toCompactBigEndian_loop_bytesRequired.
Qed.

End BytesRequiredFacts.

(** ** The codec claims *)

Section CodecClaims.

Local Open Scope N_scope.

(** C1. Round trip: for every value [v], every minimum length and every
    target type in which [v] is representable, decoding the compact
    big-endian encoding of [v] gives [v] back. *)
Theorem compact_roundtrip (T : IntType) (v : N) (_min : nat) :
  representable T v →
  fromBigEndian T (toCompactBigEndian v _min) = v.
Proof.
  intros Hr.
  rewrite fromBigEndian_cast, toCompactBigEndian_be_bytes, fromBigEndian_be_bytes.
  rewrite N.mod_small; [now apply cast_representable|].
  eapply N.lt_le_trans; [apply bytesRequired_upper|].
  apply N.pow_le_mono_r; lia.
Qed.

Lemma compact_roundtrip_witness :
  representable (Unsigned 256) 0x0102030405
  ∧ fromBigEndian (Unsigned 256) (toCompactBigEndian 0x0102030405 3)
    = 0x0102030405.
Proof.
  split; [reflexivity|].
  apply (compact_roundtrip (Unsigned 256) 0x0102030405 3). reflexivity.
Defined.

(** A buffer longer than the value needs is not left alone at its front:
    the claim that the leading bytes stay as the caller supplied them fails,
    for instance on the value 1 and the buffer [ff ff]. *)
Lemma toBigEndian_overwrites_front :
  ¬ (∀ (v : N) (o_out : bytes),
       (bytesRequired v < length o_out)%nat →
       take (length o_out - bytesRequired v) (toBigEndian v o_out)
       = take (length o_out - bytesRequired v) o_out).
Proof.
  intros H.
  assert (Hlen : (bytesRequired 1 < length [0xff; 0xff])%nat)
    by (vm_compute; lia).
  specialize (H 1 [0xff; 0xff] Hlen).
  vm_compute in H. discriminate H.
Qed.

(** C4, as the code has it. For every value [v] and every buffer longer
    than [bytesRequired v], the encoder overwrites the whole buffer: the
    leading bytes become zero (whatever the caller had put there) and the
    tail holds [v], that is its [bytesRequired v] base-256 digits, most
    significant first, so that the buffer decodes to [v]. That tail is also
    what the compact encoder returns for [v]. *)
Theorem toBigEndian_zeroes_front (v : N) (o_out : bytes) :
  (bytesRequired v < length o_out)%nat →
  toBigEndian v o_out
  = replicate (length o_out - bytesRequired v) 0
    ++ be_bytes (bytesRequired v) v
  ∧ fromBigEndian BigInt (toBigEndian v o_out) = v
  ∧ toCompactBigEndian v 0 = be_bytes (bytesRequired v) v.
Proof.
  intros Hlen. split; [|split].
  - rewrite toBigEndian_be_bytes.
    rewrite <- be_bytes_pad by apply bytesRequired_upper.
    f_equal. lia.
  - rewrite toBigEndian_be_bytes, fromBigEndian_be_bytes.
    apply N.mod_small.
    eapply N.lt_le_trans; [apply bytesRequired_upper|].
    apply N.pow_le_mono_r; lia.
  - rewrite toCompactBigEndian_be_bytes. now rewrite Nat.max_0_l.
Qed.

Lemma toBigEndian_zeroes_front_witness :
  (bytesRequired 0x0102 < length [0xff; 0xfe; 0xfd; 0xfc])%nat
  ∧ toBigEndian 0x0102 [0xff; 0xfe; 0xfd; 0xfc] = [0; 0; 1; 2]
  ∧ fromBigEndian BigInt (toBigEndian 0x0102 [0xff; 0xfe; 0xfd; 0xfc])
    = 0x0102.
Proof.
  split; [vm_compute; lia|].
  destruct (toBigEndian_zeroes_front 0x0102 [0xff; 0xfe; 0xfd; 0xfc])
    as (Hbytes & Hvalue & _); [vm_compute; lia|].
  split; [rewrite Hbytes; reflexivity | exact Hvalue].
Defined.

(** C6. Minimality: [bytesRequired 0 = 0]; for [v > 0] and a minimum length
    of at most [bytesRequired v] the compact encoding is [bytesRequired v]
    bytes long and its first byte is not zero; for a larger minimum length
    it is that many bytes long, zero bytes in front of the minimal
    encoding. *)
Theorem compact_minimal (v : N) (_min : nat) :
  0 < v →
  bytesRequired 0 = 0%nat
  ∧ ((_min ≤ bytesRequired v)%nat →
       length (toCompactBigEndian v _min) = bytesRequired v
       ∧ ∃ b rest, toCompactBigEndian v _min = b :: rest ∧ b ≠ 0)
  ∧ ((bytesRequired v < _min)%nat →
       length (toCompactBigEndian v _min) = _min
       ∧ toCompactBigEndian v _min
         = replicate (_min - bytesRequired v) 0 ++ toCompactBigEndian v 0).
Proof.
  intros Hv. split; [reflexivity|]. split.
  - intros Hmin. rewrite toCompactBigEndian_be_bytes.
    rewrite Nat.max_r by exact Hmin.
    split; [apply be_bytes_length|].
    destruct (bytesRequired v) as [|k] eqn:Hk.
    { rewrite bytesRequired_nonzero in Hk by lia. discriminate. }
    rewrite be_bytes_cons. eexists _, _. split; [reflexivity|].
    pose proof (bytesRequired_lower v k Hk) as Hlo.
    pose proof (bytesRequired_upper v) as Hup. rewrite Hk in Hup.
    replace (8 * N.of_nat (S k)) with (8 * N.of_nat k + 8) in Hup by lia.
    rewrite N.pow_add_r in Hup. change (2 ^ 8) with 256 in Hup.
    change 0xff with (N.ones 8). rewrite N.land_ones, N.shiftr_div_pow2.
    change (2 ^ 8) with 256.
    assert (Hp : 0 < 2 ^ (8 * N.of_nat k)) by (apply N.neq_0_lt_0, N.pow_nonzero; lia).
    assert (Hq1 : 1 ≤ v / 2 ^ (8 * N.of_nat k)).
    { apply N.div_le_lower_bound; lia. }
    assert (Hq2 : v / 2 ^ (8 * N.of_nat k) < 256).
    { apply N.Div0.div_lt_upper_bound; lia. }
    rewrite N.mod_small by exact Hq2. lia.
  - intros Hmin. rewrite !toCompactBigEndian_be_bytes.
    rewrite Nat.max_l by lia. rewrite Nat.max_0_l.
    split; [apply be_bytes_length|].
    rewrite <- be_bytes_pad by apply bytesRequired_upper.
    f_equal. lia.
Qed.

Lemma compact_minimal_witness :
  0 < 258
  ∧ (length (toCompactBigEndian 258 1) = bytesRequired 258
   ∧ ∃ b rest, toCompactBigEndian 258 1 = b :: rest ∧ b ≠ 0)
  ∧ (length (toCompactBigEndian 258 5) = 5%nat
     ∧ toCompactBigEndian 258 5
       = replicate (5 - bytesRequired 258) 0 ++ toCompactBigEndian 258 0).
Proof.
  split; [reflexivity|]. split.
  - destruct (compact_minimal 258 1) as (_ & H & _); [reflexivity|].
    apply H. vm_compute. lia.
  - destruct (compact_minimal 258 5) as (_ & _ & H); [reflexivity|].
    apply H. vm_compute. lia.
Defined.

(** C7. Truncation: when the buffer has [n] bytes and [8n] is less than the
    bit length of [v], the encoder returns (there is no failure) the [n]
    bytes that encode [v mod 2^(8n)]: the same bytes it stores for that
    smaller value, which decode to it; the high-order part of [v] is
    lost. *)
Theorem toBigEndian_truncates (v : N) (o_out : bytes) :
  8 * N.of_nat (length o_out) < N.size v →
  length (toBigEndian v o_out) = length o_out
  ∧ toBigEndian v o_out
    = toBigEndian (v mod 2 ^ (8 * N.of_nat (length o_out))) o_out
  ∧ fromBigEndian BigInt (toBigEndian v o_out)
    = v mod 2 ^ (8 * N.of_nat (length o_out))
  ∧ v mod 2 ^ (8 * N.of_nat (length o_out)) < v.
Proof.
  intros Hbits. split; [apply toBigEndian_length|]. split; [|split].
  - rewrite !toBigEndian_be_bytes. now rewrite be_bytes_mod.
  - rewrite toBigEndian_be_bytes. apply fromBigEndian_be_bytes.
  - assert (Hv : v ≠ 0) by (intros ->; simpl in Hbits; lia).
    rewrite N.size_log2 in Hbits by exact Hv.
    assert (Hle : 2 ^ (8 * N.of_nat (length o_out)) ≤ v).
    { apply N.log2_le_pow2; lia. }
    eapply N.lt_le_trans; [|exact Hle].
    apply N.mod_lt, N.pow_nonzero. lia.
Qed.

Lemma toBigEndian_truncates_witness :
  8 * N.of_nat (length [0; 0]) < N.size 0x010203
  ∧ toBigEndian 0x010203 [0; 0] = [2; 3]
  ∧ fromBigEndian BigInt (toBigEndian 0x010203 [0; 0]) = 0x0203.
Proof.
  split; [reflexivity|].
  destruct (toBigEndian_truncates 0x010203 [0; 0]) as (_ & H1 & H2 & _).
  - reflexivity.
  - split; [exact H1 | exact H2].
Defined.

End CodecClaims.

(** ** Hex decoding and number formatting *)

Section TextClaims.

(** C8. Decoding "zz" fails under [Throw] and gives the single byte 0 under
    [DontThrow]: the character z is not a hex digit, and the lenient policy
    replaces each such character by the nibble 0 and goes on. *)
Theorem fromHex_zz :
  fromHex "zz" Throw = BadHexCharacter
  ∧ fromHex "zz" DontThrow = Decoded [0%N]
  ∧ fromHex_char "z" Throw = BadHexCharacter
  ∧ fromHex_char "z" DontThrow = Decoded 0%N.
Proof. repeat split; reflexivity. Qed.

Variable toHex : bytes → HexPrefix → HexCase → string.
Variable str : Z → string.

(** C10. A negative [bigint] is accepted: its rendering is a minus sign in
    front of the rendering of its absolute value. *)
Theorem formatNumber_negative (v : Z) :
  (v < 0)%Z →
  formatNumber toHex str v = "-" +:+ formatNumber toHex str (- v)%Z.
Proof.
  intros Hv. rewrite (formatNumber_equation_1 toHex str v).
  destruct (decide (v < 0)%Z) as [Hneg|Hpos]; [reflexivity|contradiction].
Qed.

End TextClaims.

Lemma formatNumber_negative_witness :
  (-16777217 < 0)%Z
  ∧ formatNumber HexCodec.toHex pretty (-16777217)%Z = "-0x01000001"
  ∧ formatNumber HexCodec.toHex pretty (-42)%Z = "-42".
Proof.
  split; [lia|]. split.
  - rewrite (formatNumber_negative HexCodec.toHex pretty (-16777217)%Z) by lia.
    reflexivity.
  - rewrite (formatNumber_negative HexCodec.toHex pretty (-42)%Z) by lia.
    reflexivity.
Defined.

(** ** Single-element rewriting *)

Section IterateReplacingFacts.

Context {T : Type}.
Implicit Types (v : list T) (f : T → option (list T)).

Lemma flat_map_expand_declined f (l : list T) :
  (∀ x, x ∈ l → f x = None) → flat_map (expand f) l = l.
Proof.
  induction l as [|x l IH]; intros Hl; [reflexivity|].
  simpl. unfold expand at 1. rewrite (Hl x) by apply list_elem_of_here.
  simpl. f_equal. apply IH. intros y Hy. apply Hl. now apply list_elem_of_further.
Qed.

Lemma iterateReplacing_body_upto v f (k : nat) (st : state T) :
  k < length v →
  rewritten_upto v f k st →
  rewritten_upto v f (S k) (iterateReplacing_body v f st).
Proof.
  intros Hk (Hidx & Hcalls & Hbuf).
  destruct (lookup_lt_is_Some_2 v k Hk) as [x Hx].
  unfold iterateReplacing_body. rewrite Hidx, Hx.
  assert (Hexp : flat_map (expand f) (take (S k) v)
                 = flat_map (expand f) (take k v) ++ expand f x).
  { rewrite (take_S_r _ _ _ Hx), flat_map_app. simpl. now rewrite app_nil_r. }
  unfold rewritten_upto. rewrite Hexp.
  replace (expand f x) with (default [x] (f x)) by reflexivity.
  destruct (f x) as [r|] eqn:Hfx;
    cbn [idx calls useModified modifiedVector default].
  - rewrite Hcalls, seq_S. do 2 (split; [reflexivity|]).
    unfold catchUp. destruct (useModified st).
    + now rewrite Hbuf.
    + destruct Hbuf as [-> Hnone]. simpl.
      now rewrite flat_map_expand_declined.
  - rewrite Hcalls, seq_S. do 2 (split; [reflexivity|]).
    destruct (useModified st).
    + now rewrite Hbuf.
    + destruct Hbuf as [-> Hnone]. split; [reflexivity|].
      intros y Hy. rewrite (take_S_r _ _ _ Hx) in Hy.
      apply elem_of_app in Hy as [Hy|Hy]; [now apply Hnone|].
      apply list_elem_of_singleton in Hy. now subst y.
Qed.

Lemma iterateReplacing_iter_upto v f (k : nat) :
  k ≤ length v →
  rewritten_upto v f k (Nat.iter k (iterateReplacing_body v f) initial).
Proof.
  induction k as [|k IH]; intros Hk.
  - repeat split. intros x Hx. simpl in Hx. now apply elem_of_nil in Hx.
  - simpl. apply iterateReplacing_body_upto; [lia|]. apply IH. lia.
Qed.

Lemma iterateReplacing_iter_declined v f (k : nat) :
  (∀ x, x ∈ v → f x = None) →
  k ≤ length v →
  useModified (Nat.iter k (iterateReplacing_body v f) initial) = false.
Proof.
  intros Hf. induction k as [|k IH]; intros Hk; [reflexivity|].
  simpl. unfold iterateReplacing_body at 1.
  destruct (iterateReplacing_iter_upto v f k ltac:(lia)) as (Hi & _).
  rewrite Hi.
  destruct (lookup_lt_is_Some_2 v k ltac:(lia)) as [x Hx].
  rewrite Hx, (Hf x) by (apply list_elem_of_lookup; eauto).
  simpl. apply IH. lia.
Qed.

Lemma iterateReplacing_loop_upto v f :
  rewritten_upto v f (length v) (iterateReplacing_loop v f).
Proof. now apply iterateReplacing_iter_upto. Qed.

End IterateReplacingFacts.

(** C3. The result of [iterateReplacing] is, from left to right, each
    untouched element or, where the rule fired, its replacement (of any
    length); the rule is called at the positions 0, 1, ... once each. On
    [1,2,3,4] with the rule replacing 3 by [30,31] the result is
    [1,2,30,31,4]. *)
Theorem iterateReplacing_interleaves {T : Type} (v : list T)
    (f : T → option (list T)) :
  iterateReplacing v f = flat_map (expand f) v
  ∧ calls (iterateReplacing_loop v f) = seq 0 (length v)
  ∧ iterateReplacing [1; 2; 3; 4]
      (λ x : nat, if decide (x = 3) then Some [30; 31] else None)
    = [1; 2; 30; 31; 4].
Proof.
  destruct (iterateReplacing_loop_upto v f) as (_ & Hcalls & Hbuf).
  split; [|split; [exact Hcalls|reflexivity]].
  unfold iterateReplacing. rewrite take_ge in Hbuf by lia.
  destruct (useModified (iterateReplacing_loop v f)); [exact Hbuf|].
  destruct Hbuf as [_ Hnone]. now rewrite flat_map_expand_declined.
Qed.

(** ** Windowed rewriting *)

Section WindowFacts.

Context {T : Type}.
Variable N : nat.
Variable v : list T.
Variable f : list T → option (list T).

Lemma idx_body (st : state T) :
  idx (iterateReplacingWindow_body N v f st) = next_window N v f (idx st).
Proof.
  unfold iterateReplacingWindow_body, next_window.
  destruct (f (window N v (idx st))); simpl; lia.
Qed.

Lemma calls_body (st : state T) :
  calls (iterateReplacingWindow_body N v f st) = calls st ++ [idx st].
Proof.
  unfold iterateReplacingWindow_body.
  now destruct (f (window N v (idx st))).
Qed.

Lemma next_window_grows (p : nat) :
  1 ≤ N → p < next_window N v f p ≤ p + N.
Proof.
  intros HN. unfold next_window. destruct (f (window N v p)); lia.
Qed.

Lemma scanning_initial : scanning N v f initial.
Proof.
  split; [|split; [|split]]; simpl.
  - intros k p q Hp. now rewrite lookup_nil in Hp.
  - reflexivity.
  - intros p Hp. discriminate Hp.
  - intros p Hp. discriminate Hp.
Qed.

Lemma scanning_body (st : state T) :
  idx st + N ≤ length v →
  scanning N v f st →
  scanning N v f (iterateReplacingWindow_body N v f st).
Proof.
  intros Hwin (Hchain & Hnil & Hfirst & Hlast).
  unfold scanning. rewrite calls_body, idx_body. split; [|split; [|split]].
  - intros k p q Hp Hq.
    apply lookup_snoc_Some in Hq as [[Hlt Hq]|[Hk <-]].
    + rewrite lookup_app_l in Hp by lia. now apply (Hchain k).
    + rewrite lookup_app_l in Hp by lia.
      apply Hlast. rewrite last_lookup, <- Hk. exact Hp.
  - intros Habs. now apply app_eq_nil in Habs as [_ Habs].
  - intros p Hp.
    apply lookup_snoc_Some in Hp as [[_ Hp]|[Hlen <-]].
    + now apply Hfirst.
    + apply Hnil. now apply nil_length_inv.
  - intros p Hp. rewrite last_snoc in Hp. injection Hp as <-.
    split; [exact Hwin|reflexivity].
Qed.

Lemma iterateReplacingWindow_loop_step (fuel : nat) (st : state T) :
  iterateReplacingWindow_loop (S fuel) N v f st
  = if decide (idx st + N ≤ length v)
    then iterateReplacingWindow_loop fuel N v f
           (iterateReplacingWindow_body N v f st)
    else Some st.
Proof. reflexivity. Qed.

(** With [N ≥ 1] the index grows in every iteration, and the fuel of
    [iterateReplacingWindow_scan] is enough to leave the loop. *)
Lemma iterateReplacingWindow_loop_scanning (fuel : nat) (st : state T) :
  1 ≤ N →
  scanning N v f st →
  idx st ≤ length v →
  length v + 1 ≤ idx st + fuel →
  ∃ st', iterateReplacingWindow_loop fuel N v f st = Some st'
         ∧ scanning N v f st' ∧ length v < idx st' + N.
Proof.
  intros HN. revert st.
  induction fuel as [|fuel IH]; intros st Hst Hidx Hfuel; [lia|].
  rewrite iterateReplacingWindow_loop_step. case_decide as Hwin.
  - pose proof (next_window_grows (idx st) HN) as Hgrow.
    apply IH; [now apply scanning_body | rewrite idx_body; lia
              | rewrite idx_body; lia].
  - exists st. split; [reflexivity|]. split; [exact Hst|lia].
Qed.

Lemma iterateReplacingWindow_scan_scanning :
  1 ≤ N →
  ∃ st, iterateReplacingWindow_scan N v f = Some st
        ∧ scanning N v f st ∧ length v < idx st + N.
Proof.
  intros HN. apply iterateReplacingWindow_loop_scanning;
    [exact HN | apply scanning_initial | simpl; lia | simpl; lia].
Qed.

Lemma chained_increasing (l : list nat) :
  1 ≤ N → chained N v f l →
  ∀ d k p q, l !! k = Some p → l !! (S k + d) = Some q →
    next_window N v f p ≤ q.
Proof.
  intros HN Hl d. induction d as [|d IH]; intros k p q Hp Hq.
  - rewrite Nat.add_0_r in Hq. destruct (Hl k p q Hp Hq) as [_ ->]. lia.
  - destruct (lookup_lt_is_Some_2 l (S k + d)) as [m Hm].
    { apply lookup_lt_Some in Hq. lia. }
    replace (S k + S d) with (S (S k + d)) in Hq by lia.
    destruct (Hl _ _ _ Hm Hq) as [_ ->].
    specialize (IH k p m Hp Hm).
    pose proof (next_window_grows m HN). lia.
Qed.

(** A rule that declines every window: nothing is staged. *)
Lemma iterateReplacingWindow_loop_declined (fuel : nat) (st : state T) :
  (∀ i, i + N ≤ length v → f (window N v i) = None) →
  useModified st = false →
  modifiedVector st = [] →
  idx st ≤ length v + 1 →
  length v + 2 ≤ idx st + fuel →
  ∃ st', iterateReplacingWindow_loop fuel N v f st = Some st'
         ∧ useModified st' = false ∧ modifiedVector st' = [].
Proof.
  intros Hf. revert st.
  induction fuel as [|fuel IH]; intros st Hum Hmv Hidx Hfuel; [lia|].
  rewrite iterateReplacingWindow_loop_step. case_decide as Hwin.
  - unfold iterateReplacingWindow_body. rewrite (Hf _ Hwin), Hum.
    apply IH; simpl; try assumption; lia.
  - exists st. now repeat split.
Qed.

End WindowFacts.

(** ** The rewriting claims *)

(** C2. In the windowed rewrite the scan ends, and the calls of the rule are
    related as follows. After a window at [p] that the rule declined the
    next window starts at [p + 1]; after one it replaced, at [p + N]; that
    next window is looked at whenever it fits in the vector; and no window
    after a replaced one starts before [p + N]. For [N = 2] on [a,b,c,d,e],
    with a rule that declines [a,b] and [d,e] and replaces [b,c] by [m],
    the result is [a,m,d,e] and the windows looked at are those at 0, 1
    and 3. *)
Theorem window_scan_resync {T : Type} (N : nat) (v : list T)
    (f : list T → option (list T)) :
  1 ≤ N →
  (∃ st, iterateReplacingWindow_scan N v f = Some st
     ∧ (N ≤ length v → calls st !! 0 = Some 0)
     ∧ (∀ k p q, calls st !! k = Some p → calls st !! S k = Some q →
          (f (window N v p) = None → q = p + 1)
          ∧ (∀ r, f (window N v p) = Some r → q = p + N))
     ∧ (∀ k p, calls st !! k = Some p →
          next_window N v f p + N ≤ length v →
          calls st !! S k = Some (next_window N v f p))
     ∧ (∀ k k' p q r, k < k' →
          calls st !! k = Some p → calls st !! k' = Some q →
          f (window N v p) = Some r → p + N ≤ q))
  ∧ (∀ (a b c d e m : T) (g : list T → option (list T)),
       g [a; b] = None → g [b; c] = Some [m] → g [d; e] = None →
       iterateReplacingWindow 2 [a; b; c; d; e] g = Some [a; m; d; e]
       ∧ calls <$> iterateReplacingWindow_scan 2 [a; b; c; d; e] g
         = Some [0; 1; 3]).
Proof.
  intros HN. split.
  - destruct (iterateReplacingWindow_scan_scanning N v f HN)
      as (st & Hrun & (Hchain & Hnil & Hfirst & Hlast) & Hend).
    exists st. split; [exact Hrun|]. split; [|split; [|split]].
    + intros Hfit. destruct (calls st) as [|p0 l] eqn:Hcalls.
      * rewrite Hnil in Hend by reflexivity. lia.
      * simpl. f_equal. now apply Hfirst.
    + intros k p q Hp Hq. destruct (Hchain k p q Hp Hq) as [_ ->].
      unfold next_window. split.
      * now intros ->.
      * now intros r ->.
    + intros k p Hp Hfit.
      destruct (calls st !! S k) as [q|] eqn:Hq.
      * now destruct (Hchain k p q Hp Hq) as [_ ->].
      * exfalso. apply lookup_ge_None in Hq.
        pose proof (lookup_lt_Some _ _ _ Hp) as Hk.
        assert (Hl : last (calls st) = Some p).
        { rewrite last_lookup. rewrite <- Hp. f_equal. lia. }
        destruct (Hlast p Hl) as [_ Hidx]. lia.
    + intros k k' p q r Hlt Hp Hq Hr.
      replace k' with (S k + (k' - S k)) in Hq by lia.
      pose proof (chained_increasing N v f (calls st) HN Hchain _ _ _ _ Hp Hq)
        as Hle.
      unfold next_window in Hle. now rewrite Hr in Hle.
  - intros a b c d e m g Hab Hbc Hde.
    set (l := [a; b; c; d; e]).
    assert (H0 : iterateReplacingWindow_body 2 l g initial
                 = State 1 false [] [0]).
    { unfold iterateReplacingWindow_body, window, l. simpl. now rewrite Hab. }
    assert (H1 : iterateReplacingWindow_body 2 l g (State 1 false [] [0])
                 = State 3 true [a; m] [0; 1]).
    { unfold iterateReplacingWindow_body, window, l. simpl. now rewrite Hbc. }
    assert (H3 : iterateReplacingWindow_body 2 l g (State 3 true [a; m] [0; 1])
                 = State 4 true [a; m; d] [0; 1; 3]).
    { unfold iterateReplacingWindow_body, window, l. simpl. now rewrite Hde. }
    assert (Hscan : iterateReplacingWindow_scan 2 l g
                    = Some (State 4 true [a; m; d] [0; 1; 3])).
    { unfold iterateReplacingWindow_scan. change (length l + 2) with 7.
      rewrite iterateReplacingWindow_loop_step, H0.
      case_decide; [|simpl in *; lia].
      rewrite iterateReplacingWindow_loop_step, H1.
      case_decide; [|simpl in *; lia].
      rewrite iterateReplacingWindow_loop_step, H3.
      case_decide; [|simpl in *; lia].
      rewrite iterateReplacingWindow_loop_step.
      case_decide; [simpl in *; lia|reflexivity]. }
    unfold iterateReplacingWindow. rewrite Hscan. split; reflexivity.
Qed.

Lemma window_scan_resync_witness :
  1 ≤ 2
  ∧ iterateReplacingWindow 2 [1; 2; 3; 4; 5]
      (λ w, if decide (w = [2; 3]) then Some [23] else None)
    = Some [1; 23; 4; 5].
Proof.
  split; [lia|].
  destruct (window_scan_resync 2 [1; 2; 3; 4; 5]
              (λ w, if decide (w = [2; 3]) then Some [23] else None))
    as [_ Hex]; [lia|].
  destruct (Hex 1 2 3 4 5 23
              (λ w, if decide (w = [2; 3]) then Some [23] else None))
    as [Hres _]; [reflexivity | reflexivity | reflexivity | exact Hres].
Defined.

(** C5. A rule that declines every element, or every window, leaves the
    vector as it was, and the staging buffer is never used:
    [useModified] is still false and [modifiedVector] still empty when the
    scan ends. *)
Theorem declined_rule_no_copy {T : Type} (v : list T)
    (f : T → option (list T)) (N : nat) (g : list T → option (list T)) :
  ((∀ x, x ∈ v → f x = None) →
     iterateReplacing v f = v
     ∧ useModified (iterateReplacing_loop v f) = false
     ∧ modifiedVector (iterateReplacing_loop v f) = [])
  ∧ ((∀ i, i + N ≤ length v → g (window N v i) = None) →
     iterateReplacingWindow N v g = Some v
     ∧ ∃ st, iterateReplacingWindow_scan N v g = Some st
             ∧ useModified st = false ∧ modifiedVector st = []).
Proof.
  split.
  - intros Hf.
    destruct (iterateReplacing_loop_upto v f) as (_ & _ & Hbuf).
    pose proof (iterateReplacing_iter_declined v f (length v) Hf (le_n _))
      as Hum.
    fold (iterateReplacing_loop v f) in Hum.
    unfold iterateReplacing. rewrite Hum in Hbuf |- *.
    destruct Hbuf as [Hmv _]. now repeat split.
  - intros Hg.
    destruct (iterateReplacingWindow_loop_declined N v g (length v + 2) initial)
      as (st & Hrun & Hum & Hmv);
      [exact Hg | reflexivity | reflexivity | simpl; lia | simpl; lia |].
    split.
    + unfold iterateReplacingWindow, iterateReplacingWindow_scan.
      rewrite Hrun. simpl. unfold finish. now rewrite Hum.
    + now exists st.
Qed.

Lemma declined_rule_no_copy_witness :
  iterateReplacing [1; 2; 3] (λ _ : nat, None) = [1; 2; 3]
  ∧ iterateReplacingWindow 2 [1; 2; 3] (λ _ : list nat, None)
    = Some [1; 2; 3].
Proof.
  destruct (declined_rule_no_copy [1; 2; 3] (λ _ : nat, None)
              2 (λ _ : list nat, None)) as [H1 H2].
  split.
  - now apply H1.
  - now apply H2.
Defined.

(** C9. On a vector shorter than the window the rule is never called and
    the vector comes back as it was. *)
Theorem short_vector_untouched {T : Type} (N : nat) (v : list T)
    (f : list T → option (list T)) :
  length v < N →
  iterateReplacingWindow N v f = Some v
  ∧ calls <$> iterateReplacingWindow_scan N v f = Some [].
Proof.
  intros Hshort.
  unfold iterateReplacingWindow, iterateReplacingWindow_scan.
  replace (length v + 2) with (S (length v + 1)) by lia.
  simpl. case_decide; [lia|]. split; reflexivity.
Qed.

Lemma short_vector_untouched_witness :
  length [1; 2] < 3
  ∧ iterateReplacingWindow 3 [1; 2] (λ _ : list nat, Some []) = Some [1; 2]
  ∧ calls <$> iterateReplacingWindow_scan 3 [1; 2] (λ _ : list nat, Some [])
    = Some [].
Proof.
  split; [simpl; lia|].
  apply (short_vector_untouched 3 [1; 2] (λ _ : list nat, Some [])).
  simpl. lia.
Defined.

(** * Further properties of the codecs *)

Section CodecFurther.

Local Open Scope N_scope.

Lemma below_pow2_of_bits (a k : N) :
  (∀ m, k ≤ m → N.testbit a m = false) → a < 2 ^ k.
Proof.
  intros Hhigh.
  assert (Ha : a mod 2 ^ k = a).
  { apply N.bits_inj. intros m. destruct (N.lt_ge_cases m k).
    - now rewrite N.mod_pow2_bits_low.
    - rewrite N.mod_pow2_bits_high by assumption. symmetry. now apply Hhigh. }
  rewrite <- Ha. apply N.mod_lt, N.pow_nonzero. lia.
Qed.

Lemma bits_above_pow2 (a k m : N) :
  a < 2 ^ k → k ≤ m → N.testbit a m = false.
Proof.
  intros Ha Hm. rewrite <- (N.mod_small a (2 ^ k)) by exact Ha.
  now apply N.mod_pow2_bits_high.
Qed.

Lemma uint8_t_small (b : N) : b < 256 → uint8_t b = b.
Proof.
  intros Hb. unfold uint8_t. change 0xff with (N.ones 8).
  rewrite N.land_ones. now apply N.mod_small.
Qed.

Lemma uint8_t_bits_high (b m : N) : 8 ≤ m → N.testbit (uint8_t b) m = false.
Proof.
  intros Hm. unfold uint8_t. change 0xff with (N.ones 8).
  rewrite N.land_ones. now apply N.mod_pow2_bits_high.
Qed.

(** Decoding a concatenation: the first part is shifted past the second. *)
Lemma fromBigEndian_app (a b : bytes) :
  fromBigEndian BigInt (a ++ b)
  = N.lor (N.shiftl (fromBigEndian BigInt a) (8 * N.of_nat (length b)))
          (fromBigEndian BigInt b).
Proof.
  induction b as [|c l IH] using rev_ind.
  - rewrite app_nil_r. simpl. now rewrite N.shiftl_0_r, N.lor_0_r.
  - rewrite app_assoc, !fromBigEndian_snoc, IH. simpl cast.
    rewrite N.shiftl_lor, N.shiftl_shiftl, <- N.lor_assoc.
    rewrite length_app. simpl length. do 2 f_equal. lia.
Qed.

Lemma fromBigEndian_lt (bs : bytes) :
  fromBigEndian BigInt bs < 2 ^ (8 * N.of_nat (length bs)).
Proof.
  induction bs as [|c l IH] using rev_ind; [reflexivity|].
  rewrite fromBigEndian_snoc. simpl cast.
  apply below_pow2_of_bits. intros m Hm.
  rewrite length_app in Hm. simpl length in Hm.
  rewrite N.lor_spec, N.shiftl_spec_high' by lia.
  rewrite (bits_above_pow2 _ _ (m - 8) IH) by lia.
  now rewrite uint8_t_bits_high by lia.
Qed.

Lemma be_bytes_fromBigEndian (bs : bytes) :
  Forall (λ b, b < 256) bs →
  be_bytes (length bs) (fromBigEndian BigInt bs) = bs.
Proof.
  induction bs as [|c l IH] using rev_ind; intros Hbs; [reflexivity|].
  apply Forall_app in Hbs as [Hl Hc]. rewrite Forall_singleton in Hc.
  rewrite length_app. simpl length. rewrite Nat.add_1_r.
  rewrite fromBigEndian_snoc. simpl cast. simpl be_bytes.
  rewrite (uint8_t_small c Hc).
  assert (Hhi : N.shiftr (N.lor (N.shiftl (fromBigEndian BigInt l) 8) c) 8
                = fromBigEndian BigInt l).
  { apply N.bits_inj. intros m.
    rewrite N.shiftr_spec', N.lor_spec, N.shiftl_spec_high' by lia.
    rewrite (bits_above_pow2 c 8 (m + 8)) by (change (2 ^ 8) with 256; lia).
    rewrite orb_false_r. f_equal. lia. }
  assert (Hlo : N.land (N.lor (N.shiftl (fromBigEndian BigInt l) 8) c) 0xff
                = c).
  { change 0xff with (N.ones 8). rewrite N.land_ones.
    apply N.bits_inj. intros m. destruct (N.lt_ge_cases m 8).
    - rewrite N.mod_pow2_bits_low, N.lor_spec by lia.
      now rewrite N.shiftl_spec_low by lia.
    - rewrite N.mod_pow2_bits_high by lia. symmetry.
      apply (bits_above_pow2 c 8); [change (2 ^ 8) with 256; lia | lia]. }
  rewrite Hhi, Hlo, IH by exact Hl. reflexivity.
Qed.

Lemma fromBigEndian_zeros (k : nat) :
  fromBigEndian BigInt (replicate k 0) = 0.
Proof.
  induction k as [|k IH]; [reflexivity|].
  rewrite replicate_S_end, fromBigEndian_snoc, IH. reflexivity.
Qed.

(** X1. The 32-byte encoding of a [u256] and the 20-byte encoding of a
    [u160] have exactly that length and decode to the value. *)
Theorem toBigEndian_fixed_roundtrip (v : N) :
  (v < 2 ^ 256 →
     length (toBigEndian_u256 v) = 32%nat
     ∧ fromBigEndian (Unsigned 256) (toBigEndian_u256 v) = v)
  ∧ (v < 2 ^ 160 →
     length (toBigEndian_u160 v) = 20%nat
     ∧ fromBigEndian (Unsigned 160) (toBigEndian_u160 v) = v).
Proof.
  unfold toBigEndian_u256, toBigEndian_u160.
  split; intros Hv; (split; [now rewrite toBigEndian_length, length_replicate|]);
    rewrite fromBigEndian_cast, toBigEndian_be_bytes, length_replicate,
      fromBigEndian_be_bytes; simpl cast.
  - change (8 * N.of_nat 32) with 256.
    rewrite (N.mod_small v) by exact Hv. now apply N.mod_small.
  - change (8 * N.of_nat 20) with 160.
    rewrite (N.mod_small v) by exact Hv. now apply N.mod_small.
Qed.

Lemma toBigEndian_fixed_roundtrip_witness :
  0xdeadbeef < 2 ^ 160
  ∧ fromBigEndian (Unsigned 256) (toBigEndian_u256 0xdeadbeef) = 0xdeadbeef
  ∧ fromBigEndian (Unsigned 160) (toBigEndian_u160 0xdeadbeef) = 0xdeadbeef.
Proof.
  split; [reflexivity|].
  destruct (toBigEndian_fixed_roundtrip 0xdeadbeef) as [H256 H160].
  split; [apply H256 | apply H160]; reflexivity.
Defined.

(** X2. Encoding what was decoded gives the bytes back: for bytes below
    256 and a buffer of their length, the encoder stores the very sequence
    the value was decoded from. *)
Theorem toBigEndian_fromBigEndian (bs o_out : bytes) :
  Forall (λ b, b < 256) bs →
  length o_out = length bs →
  toBigEndian (fromBigEndian BigInt bs) o_out = bs.
Proof.
  intros Hbs Hlen. rewrite toBigEndian_be_bytes, Hlen.
  now apply be_bytes_fromBigEndian.
Qed.

Lemma toBigEndian_fromBigEndian_witness :
  Forall (λ b, b < 256) [0; 0x12; 0xff]
  ∧ toBigEndian (fromBigEndian BigInt [0; 0x12; 0xff]) [7; 7; 7]
    = [0; 0x12; 0xff].
Proof.
  assert (H : Forall (λ b, b < 256) [0; 0x12; 0xff])
    by (repeat constructor).
  split; [exact H|].
  apply (toBigEndian_fromBigEndian [0; 0x12; 0xff] [7; 7; 7] H).
  reflexivity.
Defined.

(** X3. Decoding into an unsigned type narrower than the input silently
    keeps the low-order bytes only: whatever precedes the last bytes that
    fill the type has no effect on the result. *)
Theorem fromBigEndian_drops_high_bytes (bits : N) (a b : bytes) :
  bits ≤ 8 * N.of_nat (length b) →
  fromBigEndian (Unsigned bits) (a ++ b) = fromBigEndian (Unsigned bits) b.
Proof.
  intros Hbits.
  rewrite (fromBigEndian_cast _ (a ++ b)), (fromBigEndian_cast _ b).
  rewrite fromBigEndian_app. simpl cast.
  apply N.bits_inj. intros m. destruct (N.lt_ge_cases m bits).
  - rewrite !N.mod_pow2_bits_low, N.lor_spec by assumption.
    now rewrite N.shiftl_spec_low by lia.
  - now rewrite !N.mod_pow2_bits_high by assumption.
Qed.

Lemma fromBigEndian_drops_high_bytes_witness :
  16 ≤ 8 * N.of_nat (length [0x34; 0x56])
  ∧ fromBigEndian (Unsigned 16) ([0x12] ++ [0x34; 0x56]) = 0x3456.
Proof.
  split; [vm_compute; discriminate|].
  rewrite (fromBigEndian_drops_high_bytes 16 [0x12] [0x34; 0x56]).
  - reflexivity.
  - vm_compute. discriminate.
Defined.

(** X4. Leading zero bytes do not change the decoded value, for every
    target type. *)
Theorem fromBigEndian_leading_zeros (T : IntType) (k : nat) (bs : bytes) :
  fromBigEndian T (replicate k 0 ++ bs) = fromBigEndian T bs.
Proof.
  rewrite (fromBigEndian_cast _ (_ ++ _)), (fromBigEndian_cast _ bs).
  rewrite fromBigEndian_app, fromBigEndian_zeros.
  now rewrite N.shiftl_0_l, N.lor_0_l.
Qed.

(** X5. The decoded value is bounded by the input length and by the target
    type: [n] bytes decode to a value below [256^n], and the result is
    always representable in the target type. *)
Theorem fromBigEndian_bounded (T : IntType) (bs : bytes) :
  fromBigEndian T bs < 2 ^ (8 * N.of_nat (length bs))
  ∧ representable T (fromBigEndian T bs).
Proof.
  rewrite fromBigEndian_cast. pose proof (fromBigEndian_lt bs) as Hlt.
  destruct T as [bits|]; simpl; [|now split].
  assert (Hpos : 2 ^ bits ≠ 0) by (apply N.pow_nonzero; lia).
  split; [|now apply N.mod_lt].
  eapply N.le_lt_trans; [|exact Hlt]. now apply N.Div0.mod_le.
Qed.

Lemma bytesRequired_le_pow (v : N) (n : nat) :
  (bytesRequired v ≤ n)%nat ↔ v < 2 ^ (8 * N.of_nat n).
Proof.
  split.
  - intros Hn. eapply N.lt_le_trans; [apply bytesRequired_upper|].
    apply N.pow_le_mono_r; lia.
  - intros Hv. destruct (bytesRequired v) as [|k] eqn:Hk; [lia|].
    pose proof (bytesRequired_lower v k Hk) as Hlo.
    destruct (Nat.le_gt_cases (S k) n) as [|Hgt]; [assumption|].
    exfalso. assert (2 ^ (8 * N.of_nat n) ≤ 2 ^ (8 * N.of_nat k))
      by (apply N.pow_le_mono_r; lia). lia.
Qed.

(** X6. [bytesRequired] is the least sufficient length: [n] bytes hold [v]
    exactly when [n] is at least [bytesRequired v]. *)
Theorem bytesRequired_le_iff (v : N) (n : nat) :
  (bytesRequired v ≤ n)%nat ↔ v < 2 ^ (8 * N.of_nat n).
Proof. apply bytesRequired_le_pow. Qed.

Lemma bytesRequired_le_iff_witness :
  0xffff < 2 ^ (8 * N.of_nat 2) ∧ (bytesRequired 0xffff ≤ 2)%nat.
Proof.
  split; [reflexivity|].
  apply (bytesRequired_le_iff 0xffff 2). reflexivity.
Defined.

(** X7. The compact encoding is canonical: a byte sequence without a
    leading zero byte is the compact encoding of the value it decodes to. *)
Theorem compact_canonical (b : N) (rest : bytes) :
  b ≠ 0 →
  Forall (λ x, x < 256) (b :: rest) →
  toCompactBigEndian (fromBigEndian BigInt (b :: rest)) 0 = b :: rest.
Proof.
  intros Hb Hbs.
  pose proof (be_bytes_fromBigEndian (b :: rest) Hbs) as Hbe.
  set (V := fromBigEndian BigInt (b :: rest)) in *.
  rewrite toCompactBigEndian_be_bytes, Nat.max_0_l.
  replace (bytesRequired V) with (length (b :: rest)); [exact Hbe|].
  apply Nat.le_antisymm.
  - destruct (Nat.le_gt_cases (length (b :: rest)) (bytesRequired V))
      as [|Hgt]; [assumption|].
    exfalso. simpl length in *.
    assert (Hsmall : V < 2 ^ (8 * N.of_nat (length rest)))
      by (apply bytesRequired_le_pow; lia).
    rewrite be_bytes_cons in Hbe. injection Hbe as Hhead _.
    rewrite N.shiftr_div_pow2, N.div_small in Hhead by exact Hsmall.
    rewrite N.land_0_l in Hhead. congruence.
  - apply bytesRequired_le_pow. apply fromBigEndian_lt.
Qed.

Lemma compact_canonical_witness :
  0x12 ≠ 0
  ∧ toCompactBigEndian (fromBigEndian BigInt [0x12; 0; 0xff]) 0
    = [0x12; 0; 0xff].
Proof.
  split; [discriminate|].
  apply (compact_canonical 0x12 [0; 0xff]); [discriminate|].
  repeat constructor.
Defined.

(** X8. The value 0 has the empty compact encoding; with a minimum length
    it is that many zero bytes. *)
Theorem toCompactBigEndian_zero (_min : nat) :
  toCompactBigEndian 0 _min = replicate _min 0.
Proof.
  rewrite toCompactBigEndian_be_bytes. change (bytesRequired 0) with 0%nat.
  rewrite Nat.max_0_r.
  rewrite <- (Nat.add_0_r _min) at 1.
  rewrite be_bytes_pad by reflexivity. apply app_nil_r.
Qed.

(** X9. The fixed-length encoder never reads the buffer: the result depends
    on the value and on the length of the buffer only. *)
Theorem toBigEndian_ignores_contents (v : N) (o1 o2 : bytes) :
  length o1 = length o2 → toBigEndian v o1 = toBigEndian v o2.
Proof. intros Hlen. now rewrite !toBigEndian_be_bytes, Hlen. Qed.

Lemma toBigEndian_ignores_contents_witness :
  length [1; 2; 3] = length [9; 9; 9]
  ∧ toBigEndian 0x0102 [1; 2; 3] = toBigEndian 0x0102 [9; 9; 9].
Proof.
  split; [reflexivity|].
  apply (toBigEndian_ignores_contents 0x0102 [1; 2; 3] [9; 9; 9]).
  reflexivity.
Defined.

End CodecFurther.

(** * Further properties of number formatting *)

Section FormatFurther.

Variable toHex : bytes → HexPrefix → HexCase → string.
Variable str : Z → string.

Lemma formatNumber_nonnegative (v : Z) :
  (0 ≤ v)%Z →
  formatNumber toHex str v
  = if decide (0x1000000 < v)%Z
    then toHex (toCompactBigEndian (Z.to_N v) 1) Add Lower
    else str v.
Proof.
  intros Hv. rewrite (formatNumber_equation_1 toHex str v).
  destruct (decide (v < 0)%Z) as [Hneg|Hnn]; [lia|]. simpl.
  destruct (decide (v > 0x1000000)%Z), (decide (0x1000000 < v)%Z);
    try lia; reflexivity.
Qed.

(** X10. [formatNumber] on a [bigint] renders the sign and the magnitude
    separately: a minus sign for a negative value, then the magnitude in
    decimal up to 0x1000000 inclusive and as prefixed hex of its compact
    encoding above; a value rendered in hex always takes at least four
    bytes. *)
Theorem formatNumber_cases (v : Z) :
  formatNumber toHex str v
  = (if decide (v < 0)%Z then "-" else EmptyString)
    +:+ (if decide (0x1000000 < Z.abs v)%Z
         then toHex (toCompactBigEndian (Z.to_N (Z.abs v)) 1) Add Lower
         else str (Z.abs v))
  ∧ ((0x1000000 < Z.abs v)%Z →
     4 ≤ length (toCompactBigEndian (Z.to_N (Z.abs v)) 1)).
Proof.
  split.
  - destruct (decide (v < 0)%Z) as [Hneg|Hpos].
    + rewrite (formatNumber_equation_1 toHex str v).
      destruct (decide (v < 0)%Z) as [Hneg'|]; [|contradiction]. simpl.
      rewrite formatNumber_nonnegative by lia.
      now rewrite Z.abs_neq by lia.
    + rewrite formatNumber_nonnegative by lia.
      now rewrite Z.abs_eq by lia.
  - intros Hbig. rewrite toCompactBigEndian_be_bytes, be_bytes_length.
    destruct (Nat.le_gt_cases 4 (bytesRequired (Z.to_N (Z.abs v))))
      as [|Hlt]; [lia|].
    exfalso.
    assert (Hsmall : (Z.to_N (Z.abs v) < 2 ^ (8 * N.of_nat 3))%N)
      by (apply bytesRequired_le_pow; lia).
    change (2 ^ (8 * N.of_nat 3))%N with 0x1000000%N in Hsmall. lia.
Qed.

(** X11. The two overloads of [formatNumber] agree: a [u256] value is
    rendered as the [bigint] of the same value. *)
Theorem formatNumber_u256_bigint (v : N) :
  formatNumber_u256 toHex str v = formatNumber toHex str (Z.of_N v).
Proof.
  rewrite formatNumber_nonnegative by lia.
  unfold formatNumber_u256, toCompactHexWithPrefix. rewrite N2Z.id.
  destruct (decide (0x1000000 < v)%N), (decide (0x1000000 < Z.of_N v)%Z);
    try lia; reflexivity.
Qed.

End FormatFurther.

Lemma formatNumber_cases_witness :
  (0x1000000 < Z.abs (-0x1000001))%Z
  ∧ formatNumber HexCodec.toHex pretty (-0x1000001)%Z = "-0x01000001"
  ∧ formatNumber HexCodec.toHex pretty (-0x1000000)%Z = "-16777216"
  ∧ 4 ≤ length (toCompactBigEndian (Z.to_N (Z.abs (-0x1000001))) 1).
Proof.
  split; [reflexivity|].
  destruct (formatNumber_cases HexCodec.toHex pretty (-0x1000001)%Z)
    as [Hhex Hlen].
  destruct (formatNumber_cases HexCodec.toHex pretty (-0x1000000)%Z)
    as [Hdec _].
  split; [rewrite Hhex; reflexivity|].
  split; [rewrite Hdec; reflexivity|].
  apply Hlen. reflexivity.
Defined.

(** * Strings, membership and search *)

Section ContainerFacts.

Lemma map_N_of_ascii_of_N (b : bytes) :
  Forall (λ x, x < 256)%N b → N_of_ascii <$> (ascii_of_N <$> b) = b.
Proof.
  induction 1 as [|x l Hx Hl IH]; [reflexivity|].
  rewrite !fmap_cons. now rewrite IH, N_ascii_embedding.
Qed.

Lemma map_ascii_of_N_of_ascii (l : list ascii) :
  ascii_of_N <$> (N_of_ascii <$> l) = l.
Proof.
  induction l as [|c l IH]; [reflexivity|].
  rewrite !fmap_cons. now rewrite IH, ascii_N_embedding.
Qed.

(** X12. [asString] and [asBytes] are inverse to each other: a string is
    recovered from its bytes, and a sequence of bytes (each below 256) from
    its string. *)
Theorem asString_asBytes_roundtrip (s : string) (b : bytes) :
  asString (asBytes s) = s
  ∧ (Forall (λ x, x < 256)%N b → asBytes (asString b) = b).
Proof.
  unfold asString, asBytes. split.
  - rewrite map_ascii_of_N_of_ascii. apply string_of_list_ascii_of_string.
  - intros Hb. rewrite list_ascii_of_string_of_list_ascii.
    now apply map_N_of_ascii_of_N.
Qed.

Lemma asString_asBytes_roundtrip_witness :
  asString (asBytes "Abba") = "Abba"
  ∧ asBytes (asString [0x41; 0; 0xff]%N) = [0x41; 0; 0xff]%N.
Proof.
  destruct (asString_asBytes_roundtrip "Abba" [0x41; 0; 0xff]%N) as [Hs Hb].
  split; [exact Hs|]. apply Hb. repeat constructor.
Defined.

Context {T : Type} `{EqDecision T}.

Lemma std_find_le (t : list T) (v : T) : std_find t v ≤ length t.
Proof.
  induction t as [|x t IH]; simpl; [lia|]. case_decide; lia.
Qed.

Lemma std_find_end (t : list T) (v : T) : std_find t v = length t ↔ v ∉ t.
Proof.
  induction t as [|x t IH]; simpl.
  - split; [intros _; apply not_elem_of_nil | reflexivity].
  - rewrite not_elem_of_cons. case_decide as Hx.
    + split; [discriminate | intros [Hne _]; congruence].
    + split.
      * intros Heq. split; [congruence|]. apply IH. lia.
      * intros [_ Hnot]. f_equal. now apply IH.
Qed.

(** X13. [contains] tells membership, and the search it relies on stops at
    the first element equal to the value. *)
Theorem contains_elem_of (t : list T) (v : T) :
  (contains t v = true ↔ v ∈ t)
  ∧ (v ∈ t →
     t !! std_find t v = Some v ∧ v ∉ take (std_find t v) t).
Proof.
  split.
  - unfold contains. rewrite bool_decide_eq_true.
    split.
    + intros Hne. destruct (decide (v ∈ t)) as [|Hnot]; [assumption|].
      exfalso. apply Hne. symmetry. now apply std_find_end.
    + intros Hin Heq. symmetry in Heq. now apply std_find_end in Heq.
  - induction t as [|x t IH]; intros Hin.
    + now apply elem_of_nil in Hin.
    + simpl. case_decide as Hx.
      * subst x. split; [reflexivity|]. simpl. apply not_elem_of_nil.
      * apply elem_of_cons in Hin as [->|Hin]; [contradiction|].
        destruct (IH Hin) as [Hl Hn]. split; [exact Hl|].
        simpl. rewrite not_elem_of_cons. split; [congruence|exact Hn].
Qed.

End ContainerFacts.

Lemma contains_elem_of_witness :
  2 ∈ [1; 2; 3; 2]
  ∧ [1; 2; 3; 2] !! std_find [1; 2; 3; 2] 2 = Some 2
  ∧ contains [1; 2; 3; 2] 2 = true.
Proof.
  assert (Hin : 2 ∈ [1; 2; 3; 2]) by (apply list_elem_of_In; simpl; tauto).
  split; [exact Hin|].
  destruct (contains_elem_of [1; 2; 3; 2] 2) as [Hc Hf].
  split; [now apply Hf | now apply Hc].
Defined.

Section FindAnyOfFacts.

Lemma index_occurs (needle haystack : string) :
  is_Some (index 0 needle haystack) ↔ occurs needle haystack.
Proof.
  split.
  - intros [m Hm]. exists m. now apply index_correct1 in Hm.
  - intros [m Hm]. destruct (index 0 needle haystack) as [p|] eqn:Hidx;
      [now eexists|].
    exfalso. destruct needle as [|c needle].
    + apply index_correct4 in Hidx. lia.
    + now apply (index_correct3 0 m _ _ Hidx); [|lia|].
Qed.

(** X14. [findAnyOf] returns the first needle, in the order of the list,
    that occurs in the haystack; when no needle occurs it returns the empty
    string. *)
Theorem findAnyOf_first (haystack : string) (needles : list string) :
  (∃ pre post,
     needles = pre ++ findAnyOf haystack needles :: post
     ∧ occurs (findAnyOf haystack needles) haystack
     ∧ Forall (λ n, ¬ occurs n haystack) pre)
  ∨ (findAnyOf haystack needles = EmptyString
     ∧ Forall (λ n, ¬ occurs n haystack) needles).
Proof.
  induction needles as [|n ns IH]; simpl.
  - right. split; [reflexivity|constructor].
  - destruct (index 0 n haystack) as [p|] eqn:Hidx.
    + left. exists [], ns. split; [reflexivity|]. split; [|constructor].
      apply index_occurs. rewrite Hidx. now eexists.
    + assert (Hn : ¬ occurs n haystack).
      { intros Hocc. apply index_occurs in Hocc. rewrite Hidx in Hocc.
        now destruct Hocc. }
      destruct IH as [(pre & post & Heq & Hocc & Hpre)|[Hempty Hall]].
      * left. exists (n :: pre), post.
        split; [simpl; now f_equal|]. split; [exact Hocc|].
        now constructor.
      * right. split; [exact Hempty|]. now constructor.
Qed.

End FindAnyOfFacts.

(** * Further properties of the rewriting combinators *)

Section RewriterFurther.

Context {T : Type}.

Lemma iterateReplacing_flat_map (v : list T) (f : T → option (list T)) :
  iterateReplacing v f = flat_map (expand f) v.
Proof.
  destruct (iterateReplacing_loop_upto v f) as (_ & _ & Hbuf).
  unfold iterateReplacing. rewrite take_ge in Hbuf by lia.
  destruct (useModified (iterateReplacing_loop v f)); [exact Hbuf|].
  destruct Hbuf as [_ Hnone]. now rewrite flat_map_expand_declined.
Qed.

Lemma iterateReplacing_iter_fired (v : list T) (f : T → option (list T))
    (k : nat) :
  k ≤ length v →
  useModified (Nat.iter k (iterateReplacing_body v f) initial) = true →
  ∃ x, x ∈ take k v ∧ f x ≠ None.
Proof.
  induction k as [|k IH]; intros Hk; [discriminate|].
  simpl. unfold iterateReplacing_body at 1.
  destruct (iterateReplacing_iter_upto v f k ltac:(lia)) as (Hi & _).
  rewrite Hi.
  destruct (lookup_lt_is_Some_2 v k ltac:(lia)) as [x Hx].
  rewrite Hx, (take_S_r _ _ _ Hx).
  destruct (f x) as [r|] eqn:Hfx; simpl.
  - intros _. exists x. split; [|congruence].
    apply elem_of_app. right. apply list_elem_of_here.
  - intros Hum. destruct (IH ltac:(lia) Hum) as (y & Hy & Hfy).
    exists y. split; [|exact Hfy]. apply elem_of_app. now left.
Qed.

(** X15. The staging buffer of [iterateReplacing] is used exactly when the
    rule fires on some element of the vector. *)
Theorem iterateReplacing_copies_iff_fired (v : list T)
    (f : T → option (list T)) :
  useModified (iterateReplacing_loop v f) = true ↔ ∃ x, x ∈ v ∧ f x ≠ None.
Proof.
  split.
  - intros Hum.
    destruct (iterateReplacing_iter_fired v f (length v) (le_n _) Hum)
      as (x & Hx & Hfx).
    rewrite take_ge in Hx by lia. now exists x.
  - intros (x & Hx & Hfx).
    destruct (iterateReplacing_loop_upto v f) as (_ & _ & Hbuf).
    destruct (useModified (iterateReplacing_loop v f)); [reflexivity|].
    destruct Hbuf as [_ Hnone]. rewrite take_ge in Hnone by lia.
    exfalso. apply Hfx. now apply Hnone.
Qed.

(** X16. A rule whose replacements are all empty deletes the elements it
    fires on and keeps the others, in their order. *)
Theorem iterateReplacing_deletes (v : list T) (f : T → option (list T)) :
  (∀ x r, x ∈ v → f x = Some r → r = []) →
  iterateReplacing v f = filter (λ x, f x = None) v.
Proof.
  intros Hempty. rewrite iterateReplacing_flat_map.
  induction v as [|x v IH]; [reflexivity|].
  simpl. rewrite IH
    by (intros y r Hy; apply Hempty; now apply list_elem_of_further).
  unfold expand. destruct (f x) as [r|] eqn:Hfx; simpl.
  - rewrite (Hempty x r (list_elem_of_here _ _) Hfx).
    rewrite filter_cons_False by congruence. reflexivity.
  - now rewrite filter_cons_True by assumption.
Qed.

Section Window.

Variable N : nat.
Variable v : list T.
Variable f : list T → option (list T).

Lemma rewriteWindows_go_skip (s : nat) (l : list T) :
  s ≤ length l →
  rewriteWindows_go N f s l = rewriteWindows_go N f 0 (drop s l).
Proof.
  revert s. induction l as [|x l IH]; intros s Hs.
  - simpl in Hs. now replace s with 0 by lia.
  - destruct s as [|s]; [reflexivity|]. simpl in *. apply IH. lia.
Qed.

Lemma rewriteWindows_go_short (l : list T) :
  length l < N → rewriteWindows_go N f 0 l = l.
Proof.
  induction l as [|x l IH]; intros Hl; [reflexivity|].
  simpl. simpl in Hl. case_decide; [lia|]. f_equal. apply IH. lia.
Qed.

(** One step of the recursion, at position [i] of the vector. *)
Lemma rewriteWindows_go_at (i : nat) (x : T) :
  1 ≤ N → i + N ≤ length v → v !! i = Some x →
  rewriteWindows_go N f 0 (drop i v)
  = match f (window N v i) with
    | Some r => r ++ rewriteWindows_go N f 0 (drop (i + N) v)
    | None => x :: rewriteWindows_go N f 0 (drop (S i) v)
    end.
Proof.
  intros HN Hwin Hx. unfold window. rewrite (drop_S _ _ _ Hx).
  assert (Hlen : length (drop (S i) v) = length v - S i)
    by apply length_drop.
  cbn [rewriteWindows_go].
  case_decide as Hfit; [|cbn [length] in Hfit; lia].
  destruct (f (take N (x :: drop (S i) v))); [|reflexivity].
  rewrite (rewriteWindows_go_skip (N - 1) (drop (S i) v))
    by (rewrite Hlen; lia).
  rewrite drop_drop.
  now replace (S i + (N - 1)) with (i + N) by lia.
Qed.

Lemma iterateReplacingWindow_loop_refines (fuel : nat) (st : state T) :
  1 ≤ N →
  idx st ≤ length v →
  (useModified st = false → modifiedVector st = []) →
  length v + 1 ≤ idx st + fuel →
  ∃ st', iterateReplacingWindow_loop fuel N v f st = Some st'
         ∧ finish v st'
           = staged v st ++ rewriteWindows_go N f 0 (drop (idx st) v).
Proof.
  intros HN. revert st.
  induction fuel as [|fuel IH]; intros st Hidx Hbuf Hfuel; [lia|].
  rewrite iterateReplacingWindow_loop_step. case_decide as Hwin.
  - destruct (lookup_lt_is_Some_2 v (idx st) ltac:(lia)) as [x Hx].
    rewrite (rewriteWindows_go_at (idx st) x HN Hwin Hx).
    unfold iterateReplacingWindow_body.
    destruct (f (window N v (idx st))) as [r|].
    + edestruct IH as (st' & Hrun & Hfin); [| | |
        exists st'; split; [exact Hrun|rewrite Hfin]];
        cbn [idx useModified modifiedVector]; [lia|discriminate|lia|].
      unfold staged, catchUp; cbn [idx useModified modifiedVector].
      rewrite <- app_assoc. f_equal.
      destruct (useModified st); [reflexivity|].
      now rewrite (Hbuf eq_refl).
    + edestruct IH as (st' & Hrun & Hfin); [| | |
        exists st'; split; [exact Hrun|rewrite Hfin]];
        cbn [idx useModified modifiedVector]; [lia| |lia|].
      * intros Hum. rewrite Hum. now apply Hbuf.
      * unfold staged; cbn [idx useModified modifiedVector].
        rewrite Hx. destruct (useModified st).
        -- now rewrite <- app_assoc.
        -- rewrite (take_S_r _ _ _ Hx). now rewrite <- app_assoc.
  - exists st. split; [reflexivity|].
    rewrite rewriteWindows_go_short by (rewrite length_drop; lia).
    unfold finish, staged. destruct (useModified st); [reflexivity|].
    now rewrite take_drop.
Qed.

Lemma iterateReplacingWindow_refines :
  1 ≤ N → iterateReplacingWindow N v f = Some (rewriteWindows N f v).
Proof.
  intros HN. unfold iterateReplacingWindow, iterateReplacingWindow_scan.
  destruct (iterateReplacingWindow_loop_refines (length v + 2) initial)
    as (st' & Hrun & Hfin); [exact HN|simpl; lia|reflexivity|simpl; lia|].
  rewrite Hrun. simpl. now rewrite Hfin.
Qed.

End Window.

Lemma rewriteWindows_on_singleton (g : T → option (list T)) (l : list T) :
  rewriteWindows 1 (on_singleton g) l = flat_map (expand g) l.
Proof.
  unfold rewriteWindows. induction l as [|x l IH]; [reflexivity|].
  cbn [rewriteWindows_go]. case_decide as Hfit; [|simpl in Hfit; lia].
  simpl. unfold expand at 1.
  destruct (g x); simpl; now rewrite IH.
Qed.

End RewriterFurther.

(** X17. For [N ≥ 1] the windowed rewrite returns, and its result is the
    one of the recursion [rewriteWindows] on the vector: the elements are
    kept in their order, a replaced window gives way to its replacement as
    a whole, and what is left when no whole window remains is kept. *)
Theorem iterateReplacingWindow_rewriteWindows {T : Type} (N : nat)
    (v : list T) (f : list T → option (list T)) :
  1 ≤ N → iterateReplacingWindow N v f = Some (rewriteWindows N f v).
Proof. apply iterateReplacingWindow_refines. Qed.

Lemma iterateReplacingWindow_rewriteWindows_witness :
  1 ≤ 2
  ∧ iterateReplacingWindow 2 [1; 2; 3; 4; 5; 6; 7]
      (λ w, if decide (w = [2; 3]) then Some [8; 9; 10]
            else if decide (w = [5; 6]) then Some [] else None)
    = Some [1; 8; 9; 10; 4; 7].
Proof.
  split; [lia|].
  rewrite (iterateReplacingWindow_rewriteWindows 2) by lia. reflexivity.
Defined.

(** X18. With windows of one element the windowed rewrite is the
    single-element rewrite. *)
Theorem iterateReplacingWindow_one {T : Type} (v : list T)
    (f : T → option (list T)) :
  iterateReplacingWindow 1 v (on_singleton f) = Some (iterateReplacing v f).
Proof.
  rewrite iterateReplacingWindow_refines by lia.
  now rewrite rewriteWindows_on_singleton, iterateReplacing_flat_map.
Qed.

(** X19. With windows of no element and a rule that fires, the scan never
    ends: the index does not move, so the loop condition holds after every
    iteration, whatever the number of iterations. *)
Theorem iterateReplacingWindow_zero_width {T : Type} (v : list T)
    (f : list T → option (list T)) (r : list T) :
  f [] = Some r →
  (∀ fuel, iterateReplacingWindow_loop fuel 0 v f initial = None)
  ∧ iterateReplacingWindow 0 v f = None.
Proof.
  intros Hf.
  assert (Hloop : ∀ fuel (st : state T), idx st ≤ length v →
            iterateReplacingWindow_loop fuel 0 v f st = None).
  { induction fuel as [|fuel IH]; intros st Hidx; [reflexivity|].
    rewrite iterateReplacingWindow_loop_step. case_decide; [|lia].
    apply IH. unfold iterateReplacingWindow_body, window.
    rewrite take_0, Hf. simpl. lia. }
  split.
  - intros fuel. apply Hloop. simpl. lia.
  - unfold iterateReplacingWindow, iterateReplacingWindow_scan.
    rewrite Hloop by (simpl; lia). reflexivity.
Qed.

Lemma iterateReplacingWindow_zero_width_witness :
  iterateReplacingWindow 0 [1; 2; 3] (λ _ : list nat, Some [0]) = None.
Proof.
  now destruct (iterateReplacingWindow_zero_width [1; 2; 3]
                  (λ _ : list nat, Some [0]) [0] eq_refl) as [_ H].
Defined.

Lemma iterateReplacing_copies_iff_fired_witness :
  useModified (iterateReplacing_loop [1; 2; 3]
                 (λ x, if decide (x = 2) then Some [2] else None)) = true.
Proof.
  apply (iterateReplacing_copies_iff_fired [1; 2; 3]
           (λ x, if decide (x = 2) then Some [2] else None)).
  exists 2. split; [|discriminate].
  apply list_elem_of_In. simpl. tauto.
Defined.

Lemma iterateReplacing_deletes_witness :
  iterateReplacing [1; 2; 3; 4]
    (λ x, if decide (x = 2 ∨ x = 3) then Some [] else None)
  = [1; 4].
Proof.
  rewrite (iterateReplacing_deletes [1; 2; 3; 4]
             (λ x, if decide (x = 2 ∨ x = 3) then Some [] else None)).
  - reflexivity.
  - intros x r _ Hr. case_decide; [now injection Hr|discriminate].
Defined.
